(** * Rufio [api/v1alpha1/task.go]: the Task record and its condition set

    A shallow embedding of [Task.SetCondition], [WithTaskConditionMessage]
    and [Task.HasCondition], with the Go run-time checks that the two methods
    could trip (slice indexing, writing through a nil pointer) kept explicit,
    followed by the properties of the condition set. *)

From stdpp Require Import base tactics option numbers list strings.

(** ** Data model *)

(** [type TaskConditionType string], with its two well-known values. *)
Definition TaskConditionType : Type := string.
Definition TaskCompleted : TaskConditionType := "Completed"%string.
Definition TaskFailed : TaskConditionType := "Failed"%string.

(** Modelled from the spec: [ConditionStatus] is declared in another file of
    the package; the spec describes it as an equality-comparable value that is
    persisted as a string, with the values True, False and Unknown. *)
Definition ConditionStatus : Type := string.
Definition ConditionTrue : ConditionStatus := "True"%string.
Definition ConditionFalse : ConditionStatus := "False"%string.
Definition ConditionUnknown : ConditionStatus := "Unknown"%string.

(** Modelled from the spec: [PowerAction] and [BootDevice] are declared in
    another file of the package; both are persisted as strings. *)
Definition PowerAction : Type := string.
Definition BootDevice : Type := string.

(** [type TaskCondition struct]. Go qualifies a field by its struct; here the
    struct name is a prefix of the projection. *)
Record TaskCondition : Type := mkTaskCondition {
  TaskCondition_Type : TaskConditionType;
  TaskCondition_Status : ConditionStatus;
  TaskCondition_Message : string
}.

Global Instance TaskCondition_eq_dec : EqDecision TaskCondition.
Proof. solve_decision. Defined.

(** The assignments [c.Status = s] and [c.Message = m]. *)
Definition TaskCondition_setStatus (s : ConditionStatus) (c : TaskCondition) : TaskCondition :=
  {| TaskCondition_Type := TaskCondition_Type c;
     TaskCondition_Status := s;
     TaskCondition_Message := TaskCondition_Message c |}.

Definition TaskCondition_setMessage (m : string) (c : TaskCondition) : TaskCondition :=
  {| TaskCondition_Type := TaskCondition_Type c;
     TaskCondition_Status := TaskCondition_Status c;
     TaskCondition_Message := m |}.

(** The composite literal [TaskCondition{Type: cType}]: the fields it leaves
    out hold the empty string. *)
Definition freshCondition (cType : TaskConditionType) : TaskCondition :=
  {| TaskCondition_Type := cType;
     TaskCondition_Status := EmptyString;
     TaskCondition_Message := EmptyString |}.

(** [type TaskSetConditionOption func(c *TaskCondition)]: an option receives a
    pointer to one condition and may assign any of its fields; it is embedded
    as the transformation it performs on that condition. An option is taken
    to return and to touch nothing but the condition it receives. *)
Definition TaskSetConditionOption : Type := TaskCondition → TaskCondition.

(** [func WithTaskConditionMessage(m string) TaskSetConditionOption]. *)
Definition WithTaskConditionMessage (m : string) : TaskSetConditionOption :=
  λ c, TaskCondition_setMessage m c.

(** [type OneTimeBootDeviceAction struct] and [type Action struct]; a Go
    pointer field that may be nil is an [option]. *)
Record OneTimeBootDeviceAction : Type := mkOneTimeBootDeviceAction {
  OneTimeBootDeviceAction_Devices : list BootDevice;
  OneTimeBootDeviceAction_EFIBoot : bool
}.

Record Action : Type := mkAction {
  Action_PowerAction : option PowerAction;
  Action_OneTimeBootDeviceAction : option OneTimeBootDeviceAction
}.

(** Run-time failures of the Go operations used by the two methods. *)
Inductive panic : Type :=
  | IndexOutOfRange (i : Z) (len : nat)
  | NilDereference.

Inductive result (A : Type) : Type :=
  | Ok (a : A)
  | Panic (p : panic).
Arguments Ok {A} a.
Arguments Panic {A} p.

(** A [*TaskCondition] that is either nil or the address of an element of
    [t.Status.Conditions], kept as the index of that element. [SetCondition]
    takes an address only after its one [append], so no address is held
    across a reallocation of the slice. *)
Definition ptr : Type := option nat.

Section Task.
(** [Connection] belongs to another file of the package and the three
    [metav1] types to the Kubernetes library; the methods never look inside
    them. *)
Context {Connection Time TypeMeta ObjectMeta : Type}.

Record TaskSpec : Type := mkTaskSpec {
  TaskSpec_Task : Action;
  TaskSpec_Connection : Connection
}.

Record TaskStatus : Type := mkTaskStatus {
  TaskStatus_Conditions : list TaskCondition;
  TaskStatus_StartTime : option Time;
  TaskStatus_CompletionTime : option Time
}.

Record Task : Type := mkTask {
  Task_TypeMeta : TypeMeta;
  Task_ObjectMeta : ObjectMeta;
  Task_Spec : TaskSpec;
  Task_Status : TaskStatus
}.

(** The assignment [t.Status.Conditions = cs]. *)
Definition Task_setConditions (cs : list TaskCondition) (t : Task) : Task :=
  {| Task_TypeMeta := Task_TypeMeta t;
     Task_ObjectMeta := Task_ObjectMeta t;
     Task_Spec := Task_Spec t;
     Task_Status :=
       {| TaskStatus_Conditions := cs;
          TaskStatus_StartTime := TaskStatus_StartTime (Task_Status t);
          TaskStatus_CompletionTime := TaskStatus_CompletionTime (Task_Status t) |} |}.

(** ** Methods on [*Task] as computations over the receiver *)

Definition Go (A : Type) : Type := Task → result (A * Task).

Global Instance Go_ret : MRet Go := λ A a t, Ok (a, t).
Global Instance Go_bind : MBind Go := λ A B f m t,
  match m t with
  | Ok (a, t') => f a t'
  | Panic p => Panic p
  end.

(** [t.Status.Conditions] read as a slice value. *)
Definition conditions : Go (list TaskCondition) :=
  λ t, Ok (TaskStatus_Conditions (Task_Status t), t).

(** [len(t.Status.Conditions)], a Go [int]. *)
Definition lenConditions : Go Z :=
  λ t, Ok (Z.of_nat (length (TaskStatus_Conditions (Task_Status t))), t).

(** [t.Status.Conditions = append(t.Status.Conditions, c)]. *)
Definition appendCondition (c : TaskCondition) : Go unit :=
  λ t, Ok ((), Task_setConditions (TaskStatus_Conditions (Task_Status t) ++ [c]) t).

(** [&t.Status.Conditions[i]]: the index is checked against the length. *)
Definition addrOfCondition (i : Z) : Go ptr :=
  λ t, let n := length (TaskStatus_Conditions (Task_Status t)) in
       if decide (0 ≤ i < Z.of_nat n)%Z
       then Ok (Some (Z.to_nat i), t)
       else Panic (IndexOutOfRange i n).

(** A write through [condition]: [f] is applied to the element the pointer
    designates. *)
Definition through (condition : ptr) (f : TaskCondition → TaskCondition) : Go unit :=
  λ t, match condition with
       | None => Panic NilDereference
       | Some i =>
           let cs := TaskStatus_Conditions (Task_Status t) in
           match cs !! i with
           | Some c => Ok ((), Task_setConditions (<[i := f c]> cs) t)
           | None => Panic (IndexOutOfRange (Z.of_nat i) (length cs))
           end
       end.

(** The loop [for i, c := range t.Status.Conditions] of [SetCondition],
    over the elements from index [i] on: the first element whose type is
    [cType] ends the loop with its address. *)
Fixpoint findExisting (cType : TaskConditionType) (i : Z) (cs : list TaskCondition) : Go ptr :=
  match cs with
  | [] => mret None
  | c :: rest =>
      if decide (TaskCondition_Type c = cType)
      then addrOfCondition i
      else findExisting cType (i + 1) rest
  end.

(** The loop [for _, opt := range opts { opt(condition) }]. *)
Fixpoint applyOpts (condition : ptr) (opts : list TaskSetConditionOption) : Go unit :=
  match opts with
  | [] => mret ()
  | opt :: rest => through condition opt;; applyOpts condition rest
  end.

(** [func (t *Task) SetCondition(cType, status, opts...)]. *)
Definition SetCondition (cType : TaskConditionType) (status : ConditionStatus)
    (opts : list TaskSetConditionOption) : Go unit :=
  cs ← conditions;
  condition ← findExisting cType 0 cs;
  condition ← match condition with
              | Some _ => mret condition
              | None =>
                  appendCondition (freshCondition cType);;
                  n ← lenConditions;
                  addrOfCondition (n - 1)
              end;
  through condition (TaskCondition_setStatus status);;
  applyOpts condition opts.

(** The loop of [HasCondition]: it returns at the first element whose type
    is [cType]. *)
Fixpoint hasConditionLoop (cType : TaskConditionType) (cStatus : ConditionStatus)
    (cs : list TaskCondition) : bool :=
  match cs with
  | [] => false
  | c :: rest =>
      if decide (TaskCondition_Type c = cType)
      then bool_decide (TaskCondition_Status c = cStatus)
      else hasConditionLoop cType cStatus rest
  end.

(** [func (t *Task) HasCondition(cType, cStatus) bool]. *)
Definition HasCondition (cType : TaskConditionType) (cStatus : ConditionStatus) : Go bool :=
  cs ← conditions;
  mret (hasConditionLoop cType cStatus cs).

End Task.

Arguments TaskSpec : clear implicits.
Arguments TaskStatus : clear implicits.
Arguments Task : clear implicits.

(** The condition sequence of a task. *)
Abbreviation conds t := (TaskStatus_Conditions (Task_Status t)).

(** ** Vocabulary of the properties *)

(** The options of a call applied in order to one condition. *)
Definition runOpts (opts : list TaskSetConditionOption) (c : TaskCondition) : TaskCondition :=
  foldl (λ c' opt, opt c') c opts.

(** No element of [cs] has type [cType]. *)
Definition noneOfType (cType : TaskConditionType) (cs : list TaskCondition) : Prop :=
  Forall (λ c, TaskCondition_Type c ≠ cType) cs.

(** [c] is the element at index [i] of [cs], its type is [cType], and no
    element before it has that type. *)
Definition firstOfType (cType : TaskConditionType) (cs : list TaskCondition)
    (i : nat) (c : TaskCondition) : Prop :=
  cs !! i = Some c ∧ TaskCondition_Type c = cType ∧
  ∀ j c', j < i → cs !! j = Some c' → TaskCondition_Type c' ≠ cType.

(** The elements of [cs] whose type is [cType], in order, and their number. *)
Definition ofType (cType : TaskConditionType) (cs : list TaskCondition) : list TaskCondition :=
  filter (λ c, TaskCondition_Type c = cType) cs.

Definition occurrences (cType : TaskConditionType) (cs : list TaskCondition) : nat :=
  length (ofType cType cs).

(** The uniqueness invariant of [TaskStatus.Conditions]. *)
Definition uniqueByType (cs : list TaskCondition) : Prop :=
  ∀ cType, occurrences cType cs ≤ 1.

(** An option that does not write the type of the condition it receives, and
    one that does not write its status; [WithTaskConditionMessage] is both. *)
Definition keepsType (opt : TaskSetConditionOption) : Prop :=
  ∀ c, TaskCondition_Type (opt c) = TaskCondition_Type c.

Definition keepsStatus (opt : TaskSetConditionOption) : Prop :=
  ∀ c, TaskCondition_Status (opt c) = TaskCondition_Status c.

(** ** Concrete tasks *)

(** The types the methods never inspect, fixed for the examples: the
    connection and the metadata as names, a time as a number of seconds. *)
Definition ExampleTask : Type := Task string Z string string.

Definition exampleSpec : TaskSpec string :=
  mkTaskSpec (mkAction (Some "on"%string) None) "bmc-0"%string.

(** A task as a driver creates it: spec populated, status empty. *)
Definition newTask : ExampleTask :=
  mkTask "Task"%string "power-on"%string exampleSpec (mkTaskStatus [] None None).

Definition withConditions (cs : list TaskCondition) : ExampleTask :=
  mkTask "Task"%string "power-on"%string exampleSpec (mkTaskStatus cs (Some 1700000000%Z) None).

Definition notCompleted : TaskCondition :=
  mkTaskCondition TaskCompleted ConditionFalse EmptyString.

Definition notFailed : TaskCondition :=
  mkTaskCondition TaskFailed ConditionFalse "no failure seen"%string.

(** An option a caller may pass: [func(c *TaskCondition) { c.Type = cType }]. *)
Definition retypeTo (cType : TaskConditionType) : TaskSetConditionOption :=
  λ c, {| TaskCondition_Type := cType;
          TaskCondition_Status := TaskCondition_Status c;
          TaskCondition_Message := TaskCondition_Message c |}.

(** ** Successive calls *)

(** The sequence [SetCondition] is shown to leave, as a function of the
    sequence it finds: the first entry of the type is rewritten where it is,
    and a sequence without such an entry gets one at its end. *)
Fixpoint upsert (cType : TaskConditionType) (status : ConditionStatus)
    (opts : list TaskSetConditionOption) (cs : list TaskCondition) : list TaskCondition :=
  match cs with
  | [] => [runOpts opts (TaskCondition_setStatus status (freshCondition cType))]
  | c :: rest =>
      if decide (TaskCondition_Type c = cType)
      then runOpts opts (TaskCondition_setStatus status c) :: rest
      else c :: upsert cType status opts rest
  end.

(** The arguments of one call [t.SetCondition(cType, status, opts...)]. *)
Record SetConditionCall : Type := mkSetConditionCall {
  call_cType : TaskConditionType;
  call_status : ConditionStatus;
  call_opts : list TaskSetConditionOption
}.

(** A driver's calls of [SetCondition] on one receiver, one after the other. *)
Fixpoint SetConditions {Connection Time TypeMeta ObjectMeta : Type}
    (calls : list SetConditionCall) : @Go Connection Time TypeMeta ObjectMeta unit :=
  match calls with
  | [] => mret ()
  | call :: rest =>
      SetCondition (call_cType call) (call_status call) (call_opts call);;
      SetConditions rest
  end.

(** ** Option values that may be nil or fail *)

(** A Go value of type [TaskSetConditionOption] as the loop over [opts]
    meets it: the nil function value, or a function whose call on the
    condition it is given returns, having rewritten that condition, or
    panics. *)
Inductive OptionValue : Type :=
  | NilOption
  | FuncOption (call : TaskCondition → result TaskCondition).

(** A [TaskSetConditionOption] of the embedding above as an option value: a
    function, and every call of it returns. *)
Definition optionValueOf (opt : TaskSetConditionOption) : OptionValue :=
  FuncOption (λ c, Ok (opt c)).

(** An option value that is a function every call of which returns. *)
Definition returnsAlways (opt : OptionValue) : Prop :=
  match opt with
  | NilOption => False
  | FuncOption call => ∀ c, ∃ c', call c = Ok c'
  end.

Section OptionValues.
Context {Connection Time TypeMeta ObjectMeta : Type}.

(** The call [opt(condition)]: calling the nil function value panics; a
    function is run on the element [condition] designates, and a panic of
    the function ends the method. A nil [condition] designates no element to
    run the function on; the loop is never reached with one. *)
Definition callOption (condition : ptr) (opt : OptionValue)
    : @Go Connection Time TypeMeta ObjectMeta unit :=
  λ t, match opt with
       | NilOption => Panic NilDereference
       | FuncOption call =>
           match condition with
           | None => Panic NilDereference
           | Some i =>
               let cs := TaskStatus_Conditions (Task_Status t) in
               match cs !! i with
               | Some c =>
                   match call c with
                   | Ok c' => Ok ((), Task_setConditions (<[i := c']> cs) t)
                   | Panic p => Panic p
                   end
               | None => Panic (IndexOutOfRange (Z.of_nat i) (length cs))
               end
           end
       end.

(** The loop [for _, opt := range opts { opt(condition) }] over option
    values. *)
Fixpoint applyOptionValues (condition : ptr) (opts : list OptionValue)
    : @Go Connection Time TypeMeta ObjectMeta unit :=
  match opts with
  | [] => mret ()
  | opt :: rest => callOption condition opt;; applyOptionValues condition rest
  end.

(** [func (t *Task) SetCondition(cType, status, opts...)] with the options
    as option values; the statements before the loop over [opts] are those
    of [SetCondition] above. *)
Definition SetConditionWith (cType : TaskConditionType) (status : ConditionStatus)
    (opts : list OptionValue) : @Go Connection Time TypeMeta ObjectMeta unit :=
  cs ← conditions;
  condition ← findExisting cType 0 cs;
  condition ← match condition with
              | Some _ => mret condition
              | None =>
                  appendCondition (freshCondition cType);;
                  n ← lenConditions;
                  addrOfCondition (n - 1)
              end;
  through condition (TaskCondition_setStatus status);;
  applyOptionValues condition opts.

End OptionValues.

(** ** Running the two methods *)

Section Runs.
Context {Connection Time TypeMeta ObjectMeta : Type}.
Implicit Types (t : Task Connection Time TypeMeta ObjectMeta).
Implicit Types (c : TaskCondition) (cs l : list TaskCondition).
Implicit Types (cType : TaskConditionType) (status : ConditionStatus).
Implicit Types (opts : list TaskSetConditionOption).

Lemma Task_setConditions_same t : Task_setConditions (conds t) t = t.
Proof. by destruct t as [? ? ? []]. Qed.

Lemma Go_bind_Ok {A B : Type} (m : @Go Connection Time TypeMeta ObjectMeta A)
    (f : A → @Go Connection Time TypeMeta ObjectMeta B) t (a : A) t' :
  m t = Ok (a, t') → (m ≫= f) t = f a t'.
Proof. intros Hm. unfold mbind, Go_bind. by rewrite Hm. Qed.

(** A sequence either has no element of a type, or splits at the first one. *)
Lemma first_split cType cs :
  noneOfType cType cs ∨
  ∃ l1 c l2, cs = l1 ++ c :: l2 ∧ noneOfType cType l1 ∧ TaskCondition_Type c = cType.
Proof.
  induction cs as [|c cs IH]; [left; constructor|].
  destruct (decide (TaskCondition_Type c = cType)) as [Hc|Hc].
  - right. exists [], c, cs. repeat split; [constructor | done].
  - destruct IH as [IH|(l1 & c' & l2 & -> & Hl1 & Hc')].
    + left. by constructor.
    + right. exists (c :: l1), c', l2. repeat split; [by constructor | done].
Qed.

Lemma firstOfType_split cType cs i c :
  firstOfType cType cs i c ↔
  ∃ l1 l2, cs = l1 ++ c :: l2 ∧ length l1 = i ∧ noneOfType cType l1 ∧
           TaskCondition_Type c = cType.
Proof.
  split.
  - intros (Hi & Hc & Hbefore).
    exists (take i cs), (drop (S i) cs). repeat split; [| |apply Forall_lookup|done].
    + by rewrite take_drop_middle.
    + apply length_take_le, Nat.lt_le_incl, (lookup_lt_Some _ _ _ Hi).
    + intros j c' Hj. apply lookup_take_Some in Hj as [Hj Hlt]. eauto.
  - intros (l1 & l2 & -> & <- & Hl1 & Hc). repeat split; [|done|].
    + by apply list_lookup_middle.
    + intros j c' Hlt Hj. rewrite lookup_app_l in Hj by done.
      by eapply (proj1 (Forall_lookup _ _) Hl1).
Qed.

(** The first element of a type is unique. *)
Lemma firstOfType_inj cType cs i c i' c' :
  firstOfType cType cs i c → firstOfType cType cs i' c' → i = i' ∧ c = c'.
Proof.
  intros (Hi & Hc & Hb) (Hi' & Hc' & Hb').
  assert (i = i') as <-.
  { destruct (Nat.lt_trichotomy i i') as [Hlt|[?|Hlt]]; [|done|].
    - by destruct (Hb' _ _ Hlt Hi).
    - by destruct (Hb _ _ Hlt Hi'). }
  split; congruence.
Qed.

Lemma noneOfType_no_first cType cs i c :
  noneOfType cType cs → ¬ firstOfType cType cs i c.
Proof.
  intros Hnone (Hi & Hc & _). by eapply (proj1 (Forall_lookup _ _) Hnone).
Qed.

(** *** The search loop of [SetCondition] *)

Lemma findExisting_none cType cs (i : Z) t :
  noneOfType cType cs → findExisting cType i cs t = Ok (None, t).
Proof.
  intros Hnone. revert i. induction Hnone as [|c cs Hc _ IH]; intros i; [done|].
  simpl. rewrite decide_False by done. apply IH.
Qed.

Lemma findExisting_found cType l1 c l2 (k : nat) t :
  noneOfType cType l1 → TaskCondition_Type c = cType →
  k + length (l1 ++ c :: l2) ≤ length (conds t) →
  findExisting cType (Z.of_nat k) (l1 ++ c :: l2) t = Ok (Some (k + length l1), t).
Proof.
  intros Hnone Hc. revert k.
  induction Hnone as [|c' l1 Hc' _ IH]; intros k Hlen; simpl in *.
  - rewrite decide_True by done. unfold addrOfCondition.
    rewrite decide_True by lia. by rewrite Nat2Z.id, Nat.add_0_r.
  - rewrite decide_False by done.
    replace (Z.of_nat k + 1)%Z with (Z.of_nat (S k)) by lia.
    rewrite IH by lia. do 3 f_equal. lia.
Qed.

(** *** Writes through the condition pointer *)

Lemma through_run (i : nat) c f t :
  conds t !! i = Some c →
  through (Some i) f t = Ok ((), Task_setConditions (<[i := f c]> (conds t)) t).
Proof. intros Hi. unfold through. by rewrite Hi. Qed.

Lemma applyOpts_run opts (i : nat) c t :
  conds t !! i = Some c →
  applyOpts (Some i) opts t =
    Ok ((), Task_setConditions (<[i := runOpts opts c]> (conds t)) t).
Proof.
  revert c t. induction opts as [|opt opts IH]; intros c t Hi; simpl.
  - by rewrite list_insert_id, Task_setConditions_same.
  - rewrite (Go_bind_Ok _ _ _ _ _ (through_run _ _ _ _ Hi)).
    rewrite (IH (opt c)); simpl.
    + by rewrite list_insert_insert_eq.
    + apply list_lookup_insert_eq, (lookup_lt_Some _ _ _ Hi).
Qed.

(** *** [SetCondition] on a sequence that holds the type, and on one that
    does not *)

Lemma SetCondition_found cType status opts l1 c l2 t :
  conds t = l1 ++ c :: l2 → noneOfType cType l1 → TaskCondition_Type c = cType →
  SetCondition cType status opts t =
    Ok ((), Task_setConditions
              (l1 ++ runOpts opts (TaskCondition_setStatus status c) :: l2) t).
Proof.
  intros Hcs Hnone Hc. unfold SetCondition.
  rewrite (Go_bind_Ok _ _ t (conds t) t) by done.
  rewrite (Go_bind_Ok _ _ t (Some (0 + length l1)) t)
    by (rewrite Hcs; apply (findExisting_found _ _ _ _ 0); rewrite ?Hcs; done).
  rewrite (Go_bind_Ok _ _ t (Some (length l1)) t) by done.
  assert (conds t !! length l1 = Some c) as Hi
    by (rewrite Hcs; by apply list_lookup_middle).
  rewrite (Go_bind_Ok _ _ _ _ _ (through_run _ _ _ _ Hi)).
  rewrite (applyOpts_run _ _ (TaskCondition_setStatus status c)); simpl.
  - rewrite list_insert_insert_eq, Hcs.
    by rewrite <-(Nat.add_0_r (length l1)), insert_app_r.
  - apply list_lookup_insert_eq, (lookup_lt_Some _ _ _ Hi).
Qed.

Lemma SetCondition_fresh cType status opts t :
  noneOfType cType (conds t) →
  SetCondition cType status opts t =
    Ok ((), Task_setConditions
              (conds t ++ [runOpts opts (TaskCondition_setStatus status (freshCondition cType))]) t).
Proof.
  intros Hnone. unfold SetCondition.
  set (t' := Task_setConditions (conds t ++ [freshCondition cType]) t).
  assert (conds t' !! length (conds t) = Some (freshCondition cType)) as Hi
    by (simpl; by apply list_lookup_middle).
  rewrite (Go_bind_Ok _ _ t (conds t) t) by done.
  rewrite (Go_bind_Ok _ _ t None t) by (by apply findExisting_none).
  rewrite (Go_bind_Ok _ _ t (Some (length (conds t))) t').
  - rewrite (Go_bind_Ok _ _ _ _ _ (through_run _ _ _ _ Hi)).
    rewrite (applyOpts_run _ _ (TaskCondition_setStatus status (freshCondition cType))); simpl.
    + rewrite list_insert_insert_eq.
      by rewrite <-(Nat.add_0_r (length (conds t))), insert_app_r.
    + apply list_lookup_insert_eq, (lookup_lt_Some _ _ _ Hi).
  - rewrite (Go_bind_Ok _ _ t () t') by done.
    rewrite (Go_bind_Ok _ _ t' (Z.of_nat (length (conds t'))) t') by done.
    unfold addrOfCondition. simpl. rewrite length_app. simpl.
    rewrite decide_True by lia. do 3 f_equal. lia.
Qed.

(** *** The loop of [HasCondition] *)

Lemma hasConditionLoop_none cType cStatus cs :
  noneOfType cType cs → hasConditionLoop cType cStatus cs = false.
Proof.
  induction 1 as [|c cs Hc _ IH]; [done|]. simpl. by rewrite decide_False.
Qed.

Lemma hasConditionLoop_found cType cStatus l1 c l2 :
  noneOfType cType l1 → TaskCondition_Type c = cType →
  hasConditionLoop cType cStatus (l1 ++ c :: l2) =
    bool_decide (TaskCondition_Status c = cStatus).
Proof.
  intros Hnone Hc. induction Hnone as [|c' l1 Hc' _ IH]; simpl.
  - by rewrite decide_True.
  - by rewrite decide_False.
Qed.

End Runs.

(** ** Counting the entries of a type *)

Section Counting.
Implicit Types (c : TaskCondition) (cs l : list TaskCondition).
Implicit Types (cType : TaskConditionType) (opts : list TaskSetConditionOption).

Lemma ofType_app cType l1 l2 :
  ofType cType (l1 ++ l2) = ofType cType l1 ++ ofType cType l2.
Proof. apply filter_app. Qed.

Lemma ofType_cons_eq cType c l :
  TaskCondition_Type c = cType → ofType cType (c :: l) = c :: ofType cType l.
Proof. intros Hc. unfold ofType. by rewrite filter_cons_True. Qed.

Lemma ofType_cons_ne cType c l :
  TaskCondition_Type c ≠ cType → ofType cType (c :: l) = ofType cType l.
Proof. intros Hc. unfold ofType. by rewrite filter_cons_False. Qed.

Lemma ofType_none cType cs : noneOfType cType cs → ofType cType cs = [].
Proof.
  induction 1 as [|c cs Hc _ IH]; [done|]. by rewrite ofType_cons_ne.
Qed.

Lemma ofType_nil_none cType cs : ofType cType cs = [] → noneOfType cType cs.
Proof.
  intros Hnil. apply Forall_forall. intros c Hin Hc.
  by apply (filter_nil_not_elem_of _ _ c Hnil).
Qed.

(** Around the first entry of a type, the entries of that type are that entry
    and those behind it. *)
Lemma ofType_split cType l1 c l2 :
  noneOfType cType l1 → TaskCondition_Type c = cType →
  ofType cType (l1 ++ c :: l2) = c :: ofType cType l2.
Proof.
  intros Hnone Hc. by rewrite ofType_app, (ofType_none _ l1), ofType_cons_eq.
Qed.

(** Replacing an entry by one of the same type changes no count. *)
Lemma occurrences_replace cType l1 c c' l2 :
  TaskCondition_Type c' = TaskCondition_Type c →
  occurrences cType (l1 ++ c' :: l2) = occurrences cType (l1 ++ c :: l2).
Proof.
  intros Hty. unfold occurrences. rewrite !ofType_app, !length_app. f_equal.
  destruct (decide (TaskCondition_Type c = cType)) as [Hc|Hc].
  - rewrite !ofType_cons_eq by congruence. done.
  - rewrite !ofType_cons_ne by congruence. done.
Qed.

Lemma occurrences_snoc cType cType' cs c :
  TaskCondition_Type c = cType →
  occurrences cType' (cs ++ [c]) =
    occurrences cType' cs + (if decide (cType = cType') then 1 else 0).
Proof.
  intros Hc. unfold occurrences. rewrite ofType_app, length_app. f_equal.
  destruct (decide (cType = cType')) as [<-|Hne].
  - by rewrite ofType_cons_eq.
  - rewrite ofType_cons_ne by congruence. done.
Qed.

Lemma runOpts_keepsType opts c :
  Forall keepsType opts → TaskCondition_Type (runOpts opts c) = TaskCondition_Type c.
Proof.
  intros Hopts. revert c. induction Hopts as [|opt opts Hopt _ IH]; intros c; [done|].
  simpl. by rewrite IH, Hopt.
Qed.

Lemma runOpts_keepsStatus opts c :
  Forall keepsStatus opts →
  TaskCondition_Status (runOpts opts c) = TaskCondition_Status c.
Proof.
  intros Hopts. revert c. induction Hopts as [|opt opts Hopt _ IH]; intros c; [done|].
  simpl. by rewrite IH, Hopt.
Qed.

Lemma WithTaskConditionMessage_keepsType m : keepsType (WithTaskConditionMessage m).
Proof. by intros c. Qed.

Lemma WithTaskConditionMessage_keepsStatus m : keepsStatus (WithTaskConditionMessage m).
Proof. by intros c. Qed.

End Counting.

(** ** Properties of [SetCondition] and [HasCondition] *)

Section Properties.
Context {Connection Time TypeMeta ObjectMeta : Type}.
Implicit Types (t : Task Connection Time TypeMeta ObjectMeta).
Implicit Types (c : TaskCondition) (cs l : list TaskCondition).
Implicit Types (cType : TaskConditionType) (status cStatus : ConditionStatus).
Implicit Types (opts : list TaskSetConditionOption).

(** [SetCondition] returns on every receiver, with the updated or the
    extended sequence. *)
Lemma SetCondition_run cType status opts t :
  (∃ i c, firstOfType cType (conds t) i c ∧
     SetCondition cType status opts t =
       Ok ((), Task_setConditions
                 (<[i := runOpts opts (TaskCondition_setStatus status c)]> (conds t)) t)) ∨
  (noneOfType cType (conds t) ∧
     SetCondition cType status opts t =
       Ok ((), Task_setConditions
                 (conds t ++ [runOpts opts (TaskCondition_setStatus status (freshCondition cType))]) t)).
Proof.
  destruct (first_split cType (conds t)) as [Hnone|(l1 & c & l2 & Hcs & Hnone & Hc)].
  - right. split; [done|]. by apply SetCondition_fresh.
  - left. exists (length l1), c. split.
    + apply firstOfType_split. by exists l1, l2.
    + rewrite (SetCondition_found _ _ _ l1 c l2) by done.
      rewrite Hcs. by rewrite <-(Nat.add_0_r (length l1)), insert_app_r.
Qed.

Lemma HasCondition_run cType cStatus t :
  HasCondition cType cStatus t = Ok (hasConditionLoop cType cStatus (conds t), t).
Proof. reflexivity. Qed.

(** The same in one shape: the result is the sequence split around the entry
    that was written, which either replaces the first entry of the type or
    follows the whole sequence. *)
Lemma SetCondition_split cType status opts t :
  ∃ l1 c0 l2,
    noneOfType cType l1 ∧ TaskCondition_Type c0 = cType ∧
    SetCondition cType status opts t =
      Ok ((), Task_setConditions
                (l1 ++ runOpts opts (TaskCondition_setStatus status c0) :: l2) t) ∧
    (conds t = l1 ++ c0 :: l2 ∨
     (conds t = l1 ∧ l2 = [] ∧ c0 = freshCondition cType)).
Proof.
  destruct (first_split cType (conds t)) as [Hnone|(l1 & c & l2 & Hcs & Hnone & Hc)].
  - exists (conds t), (freshCondition cType), []. repeat split; [done| |by right].
    by apply SetCondition_fresh.
  - exists l1, c, l2. repeat split; [done|done| |by left].
    by apply SetCondition_found.
Qed.

(** On a sequence with at most one entry of the type, and with options that
    keep the type, the written entry is the only one of its type. *)
Lemma SetCondition_single cType status opts t :
  occurrences cType (conds t) ≤ 1 → Forall keepsType opts →
  ∃ t' c0,
    SetCondition cType status opts t = Ok ((), t') ∧
    ofType cType (conds t') = [runOpts opts (TaskCondition_setStatus status c0)] ∧
    ((∃ i, firstOfType cType (conds t) i c0) ∨
     (noneOfType cType (conds t) ∧ c0 = freshCondition cType)).
Proof.
  intros Hocc Hopts.
  destruct (SetCondition_split cType status opts t)
    as (l1 & c0 & l2 & Hnone & Hc0 & Hrun & Hcs).
  eexists _, c0. split; [exact Hrun|]. simpl.
  assert (ofType cType l2 = []) as Hl2.
  { destruct Hcs as [Hcs|(_ & -> & _)]; [|done].
    unfold occurrences in Hocc. rewrite Hcs, ofType_split in Hocc by done.
    simpl in Hocc. apply nil_length_inv. lia. }
  split.
  - rewrite ofType_split, Hl2; [done|done|].
    by rewrite runOpts_keepsType.
  - destruct Hcs as [Hcs|(Hcs & _ & ->)].
    + left. exists (length l1). apply firstOfType_split. by exists l1, l2.
    + right. by rewrite Hcs.
Qed.

(** C3. [HasCondition(T, S)] returns true exactly when the first entry whose
    type is [T] has status [S]; it returns false when no entry has type [T],
    and false when the first entry of type [T] has another status. *)
Theorem HasCondition_first_match t cType cStatus :
  ∃ b, HasCondition cType cStatus t = Ok (b, t) ∧
    (b = true ↔
       ∃ i c, firstOfType cType (conds t) i c ∧ TaskCondition_Status c = cStatus) ∧
    (noneOfType cType (conds t) → b = false) ∧
    (∀ i c, firstOfType cType (conds t) i c →
            TaskCondition_Status c ≠ cStatus → b = false).
Proof.
  exists (hasConditionLoop cType cStatus (conds t)). split; [apply HasCondition_run|].
  destruct (first_split cType (conds t)) as [Hnone|(l1 & c & l2 & Hcs & Hnone & Hc)].
  - rewrite hasConditionLoop_none by done. repeat split; try done.
    intros (i & c & Hfirst & _). by destruct (noneOfType_no_first _ _ i c Hnone).
  - assert (firstOfType cType (conds t) (length l1) c) as Hfirst
      by (apply firstOfType_split; by exists l1, l2).
    rewrite Hcs, hasConditionLoop_found, <-Hcs by done. repeat split.
    + intros Hb. exists (length l1), c. split; [done|].
      by apply bool_decide_eq_true in Hb.
    + intros (i & c' & Hfirst' & Hst).
      destruct (firstOfType_inj _ _ _ _ _ _ Hfirst Hfirst') as [_ <-].
      by apply bool_decide_eq_true.
    + intros Hnone'. by destruct (noneOfType_no_first _ _ _ _ Hnone' Hfirst).
    + intros i c' Hfirst' Hst.
      destruct (firstOfType_inj _ _ _ _ _ _ Hfirst Hfirst') as [_ <-].
      by apply bool_decide_eq_false.
Qed.

(** C5. When an entry of the given type exists, [SetCondition] rewrites the
    first such entry at its index and the sequence keeps its length; when none
    exists, the new entry is appended at the end. In particular a task whose
    conditions are the single entry Completed/False holds, after
    [SetCondition(Completed, True)], the single entry Completed/True. *)
Theorem SetCondition_position t cType status opts :
  (∀ i c, firstOfType cType (conds t) i c →
     ∃ t', SetCondition cType status opts t = Ok ((), t') ∧
       conds t' = <[i := runOpts opts (TaskCondition_setStatus status c)]> (conds t) ∧
       length (conds t') = length (conds t)) ∧
  (noneOfType cType (conds t) →
     ∃ t', SetCondition cType status opts t = Ok ((), t') ∧
       conds t' =
         conds t ++ [runOpts opts (TaskCondition_setStatus status (freshCondition cType))]) ∧
  (∀ m, conds t = [mkTaskCondition TaskCompleted ConditionFalse m] →
     ∃ t', SetCondition TaskCompleted ConditionTrue [] t = Ok ((), t') ∧
       conds t' = [mkTaskCondition TaskCompleted ConditionTrue m]).
Proof.
  split; [|split].
  - intros i c Hfirst.
    destruct (SetCondition_run cType status opts t)
      as [(i' & c' & Hfirst' & Hrun)|[Hnone _]].
    + destruct (firstOfType_inj _ _ _ _ _ _ Hfirst Hfirst') as [<- <-].
      eexists. split; [exact Hrun|]. simpl. by rewrite length_insert.
    + by destruct (noneOfType_no_first _ _ _ _ Hnone Hfirst).
  - intros Hnone. eexists. split; [by apply SetCondition_fresh|done].
  - intros m Hcs. eexists. split.
    + apply (SetCondition_found _ _ _ []
               (mkTaskCondition TaskCompleted ConditionFalse m) []);
        [done|constructor|done].
    + done.
Qed.

(** The index and pointer operations of the two methods themselves never
    fail: with options that are functions and return, no index is out of
    range and no nil pointer is written through. *)
Theorem SetCondition_HasCondition_total t cType status opts :
  (∃ t', SetCondition cType status opts t = Ok ((), t')) ∧
  (∃ b t', HasCondition cType status t = Ok (b, t')).
Proof.
  split.
  - destruct (SetCondition_run cType status opts t)
      as [(i & c & _ & Hrun)|[_ Hrun]]; eauto.
  - eexists _, _. apply HasCondition_run.
Qed.

(** C10. [HasCondition] returns its answer and leaves the whole task as it
    was: spec, condition sequence, start time and completion time. *)
Theorem HasCondition_pure t cType cStatus :
  ∃ b t', HasCondition cType cStatus t = Ok (b, t') ∧
    t' = t ∧
    Task_Spec t' = Task_Spec t ∧
    conds t' = conds t ∧
    TaskStatus_StartTime (Task_Status t') = TaskStatus_StartTime (Task_Status t) ∧
    TaskStatus_CompletionTime (Task_Status t') =
      TaskStatus_CompletionTime (Task_Status t).
Proof. eexists _, _. split; [apply HasCondition_run|done]. Qed.

(** C1, as amended. On a task with at most one entry of type [T], and with
    options that write neither the type nor the status,
    [SetCondition(T, S, opts...)] leaves exactly one entry of type [T]: it has
    status [S], and it is the earlier entry of type [T] (a new entry of type
    [T] when there was none) with [S] stored and the options applied in order.
    On such a task, [SetCondition(T, S1)] followed by [SetCondition(T, S2)]
    leaves exactly one entry of type [T], with status [S2]. *)
Theorem SetCondition_exactly_one t cType :
  occurrences cType (conds t) ≤ 1 →
  (∀ status opts, Forall keepsType opts → Forall keepsStatus opts →
     ∃ t' c, SetCondition cType status opts t = Ok ((), t') ∧
       ofType cType (conds t') = [c] ∧
       TaskCondition_Status c = status ∧
       (∀ i c0, firstOfType cType (conds t) i c0 →
                c = runOpts opts (TaskCondition_setStatus status c0)) ∧
       (noneOfType cType (conds t) →
          c = runOpts opts (TaskCondition_setStatus status (freshCondition cType)))) ∧
  (∀ status1 status2, ∃ t1 t2 c,
     SetCondition cType status1 [] t = Ok ((), t1) ∧
     SetCondition cType status2 [] t1 = Ok ((), t2) ∧
     ofType cType (conds t2) = [c] ∧
     TaskCondition_Status c = status2).
Proof.
  intros Hocc. split.
  - intros status opts Hty Hst.
    destruct (SetCondition_single cType status opts t Hocc Hty)
      as (t' & c0 & Hrun & Hof & Hc0).
    exists t', (runOpts opts (TaskCondition_setStatus status c0)).
    repeat split; [done|done|by rewrite runOpts_keepsStatus| |].
    + intros i c1 Hfirst. destruct Hc0 as [[i' Hfirst']|[Hnone _]].
      * by destruct (firstOfType_inj _ _ _ _ _ _ Hfirst Hfirst') as [_ ->].
      * by destruct (noneOfType_no_first _ _ _ _ Hnone Hfirst).
    + intros Hnone. destruct Hc0 as [[i Hfirst]|[_ ->]]; [|done].
      by destruct (noneOfType_no_first _ _ _ _ Hnone Hfirst).
  - intros status1 status2.
    destruct (SetCondition_single cType status1 [] t Hocc (Forall_nil_2 _))
      as (t1 & c0 & Hrun1 & Hof1 & _).
    assert (occurrences cType (conds t1) ≤ 1) as Hocc1
      by (unfold occurrences; by rewrite Hof1).
    destruct (SetCondition_single cType status2 [] t1 Hocc1 (Forall_nil_2 _))
      as (t2 & c1 & Hrun2 & Hof2 & _).
    by exists t1, t2, (TaskCondition_setStatus status2 c1).
Qed.

(** C2. [SetCondition(T1, ...)] leaves every entry whose type differs from
    [T1] as it was and at the index it had, so those entries keep their
    order; and the task spec, the start time and the completion time (and the
    metadata) are unchanged. *)
Theorem SetCondition_frame t cType1 status opts :
  ∃ t', SetCondition cType1 status opts t = Ok ((), t') ∧
    (∀ cType2 i c, cType1 ≠ cType2 →
       conds t !! i = Some c → TaskCondition_Type c = cType2 →
       conds t' !! i = Some c) ∧
    Task_Spec t' = Task_Spec t ∧
    TaskStatus_StartTime (Task_Status t') = TaskStatus_StartTime (Task_Status t) ∧
    TaskStatus_CompletionTime (Task_Status t') =
      TaskStatus_CompletionTime (Task_Status t) ∧
    Task_TypeMeta t' = Task_TypeMeta t ∧
    Task_ObjectMeta t' = Task_ObjectMeta t.
Proof.
  destruct (SetCondition_run cType1 status opts t)
    as [(i' & c' & (Hi' & Hc' & _) & Hrun)|[_ Hrun]];
    (eexists; split; [exact Hrun|]); (split; [|done]); simpl;
    intros cType2 i c Hne Hi Hc.
  - rewrite list_lookup_insert_ne; [done|]. intros ->. congruence.
  - by apply lookup_app_l_Some.
Qed.

(** C4, as amended. When every condition type occurs at most once and the
    options of the call keep the type of the condition they receive, every
    condition type occurs at most once after [SetCondition(T, S, opts...)]. *)
Theorem SetCondition_preserves_uniqueByType t cType status opts :
  uniqueByType (conds t) → Forall keepsType opts →
  ∃ t', SetCondition cType status opts t = Ok ((), t') ∧ uniqueByType (conds t').
Proof.
  intros Huniq Hopts.
  destruct (SetCondition_split cType status opts t)
    as (l1 & c0 & l2 & Hnone & Hc0 & Hrun & Hcs).
  eexists. split; [exact Hrun|]. simpl. intros cType'.
  destruct Hcs as [Hcs|(Hcs & -> & ->)].
  - rewrite (occurrences_replace _ _ c0) by (by rewrite runOpts_keepsType).
    rewrite <-Hcs. apply Huniq.
  - rewrite (occurrences_snoc cType) by (by rewrite runOpts_keepsType).
    destruct (decide (cType = cType')) as [<-|_].
    + unfold occurrences. by rewrite ofType_none.
    + rewrite Nat.add_0_r, <-Hcs. apply Huniq.
Qed.

(** C6. After [SetCondition(T, S, WithTaskConditionMessage(m))] the first
    entry of type [T] has status [S] and message [m], and it is the only entry
    of type [T] when the task had at most one. On a task without conditions,
    [SetCondition(Failed, True, WithTaskConditionMessage(m))] yields the
    single entry Failed/True/[m]; then [HasCondition(Failed, True)] is true
    and [HasCondition(Completed, True)] is false. *)
Theorem WithTaskConditionMessage_sets_message t cType status m :
  (∃ t' i c,
     SetCondition cType status [WithTaskConditionMessage m] t = Ok ((), t') ∧
     firstOfType cType (conds t') i c ∧
     TaskCondition_Status c = status ∧
     TaskCondition_Message c = m ∧
     (occurrences cType (conds t) ≤ 1 → ofType cType (conds t') = [c])) ∧
  (conds t = [] →
     ∃ t', SetCondition TaskFailed ConditionTrue [WithTaskConditionMessage m] t
             = Ok ((), t') ∧
       conds t' = [mkTaskCondition TaskFailed ConditionTrue m] ∧
       HasCondition TaskFailed ConditionTrue t' = Ok (true, t') ∧
       HasCondition TaskCompleted ConditionTrue t' = Ok (false, t')).
Proof.
  split.
  - destruct (SetCondition_split cType status [WithTaskConditionMessage m] t)
      as (l1 & c0 & l2 & Hnone & Hc0 & Hrun & Hcs).
    eexists _, (length l1),
      (WithTaskConditionMessage m (TaskCondition_setStatus status c0)).
    split; [exact Hrun|]. simpl.
    split; [apply firstOfType_split; by exists l1, l2|].
    repeat split. intros Hocc. rewrite ofType_split by done. f_equal.
    destruct Hcs as [Hcs|(_ & -> & _)]; [|done].
    unfold occurrences in Hocc. rewrite Hcs, ofType_split in Hocc by done.
    simpl in Hocc. apply nil_length_inv. lia.
  - intros Hcs. eexists. split.
    + apply SetCondition_fresh. rewrite Hcs. constructor.
    + rewrite Hcs. done.
Qed.

(** C8. After [SetCondition(T, S1, WithTaskConditionMessage(m))] followed by
    [SetCondition(T, S2)] without options, the first entry of type [T] has
    status [S2] and still has message [m]. *)
Theorem SetCondition_retains_message t cType m status1 status2 :
  ∃ t1 t2 i c,
    SetCondition cType status1 [WithTaskConditionMessage m] t = Ok ((), t1) ∧
    SetCondition cType status2 [] t1 = Ok ((), t2) ∧
    firstOfType cType (conds t2) i c ∧
    TaskCondition_Status c = status2 ∧
    TaskCondition_Message c = m.
Proof.
  destruct (SetCondition_split cType status1 [WithTaskConditionMessage m] t)
    as (l1 & c0 & l2 & Hnone & Hc0 & Hrun & _).
  set (c1 := WithTaskConditionMessage m (TaskCondition_setStatus status1 c0)).
  eexists _, _, (length l1), (TaskCondition_setStatus status2 c1).
  split; [exact Hrun|]. split.
  - by apply (SetCondition_found _ _ _ l1 c1 l2).
  - simpl. split; [|done]. apply firstOfType_split. by exists l1, l2.
Qed.

(** C9. On a task whose sequence holds more than one entry of type [T], with
    [c] the first of them at index [i]: [SetCondition(T, ...)] rewrites the
    entry at index [i] only, every other index keeps its entry, the length is
    unchanged, and the number of entries of type [T] is unchanged when the
    options keep the type; [HasCondition(T, S)] answers whether the status of
    [c] is [S] and leaves the task as it was. *)
Theorem first_match_wins_on_duplicates t cType i c :
  1 < occurrences cType (conds t) → firstOfType cType (conds t) i c →
  (∀ status opts, ∃ t',
     SetCondition cType status opts t = Ok ((), t') ∧
     conds t' !! i = Some (runOpts opts (TaskCondition_setStatus status c)) ∧
     (∀ j, j ≠ i → conds t' !! j = conds t !! j) ∧
     length (conds t') = length (conds t) ∧
     (Forall keepsType opts →
        occurrences cType (conds t') = occurrences cType (conds t))) ∧
  (∀ cStatus,
     HasCondition cType cStatus t =
       Ok (bool_decide (TaskCondition_Status c = cStatus), t)).
Proof.
  intros _ Hfirst.
  destruct (proj1 (firstOfType_split _ _ _ _) Hfirst)
    as (l1 & l2 & Hcs & <- & Hnone & Hc).
  split.
  - intros status opts. eexists. split; [by apply (SetCondition_found _ _ _ l1 c l2)|].
    simpl. repeat split.
    + by apply list_lookup_middle.
    + intros j Hj. rewrite Hcs.
      destruct (decide (j < length l1)) as [Hlt|Hge].
      * by rewrite !lookup_app_l.
      * rewrite !lookup_app_r by lia.
        destruct (j - length l1) as [|k] eqn:Hk; [lia|done].
    + rewrite Hcs, !length_app. done.
    + intros Hopts. rewrite Hcs. apply occurrences_replace.
      by rewrite runOpts_keepsType.
  - intros cStatus. rewrite HasCondition_run, Hcs. by rewrite hasConditionLoop_found.
Qed.

End Properties.

(** ** The invariant as absence of repeated types *)

Lemma uniqueByType_NoDup (cs : list TaskCondition) :
  uniqueByType cs ↔ NoDup (TaskCondition_Type <$> cs).
Proof.
  induction cs as [|c cs IH]; simpl.
  - split; [constructor|]. intros _ cType. unfold occurrences. simpl. lia.
  - rewrite NoDup_cons, <-IH. split.
    + intros Huniq. split.
      * intros Hin. apply list_elem_of_fmap in Hin as (c' & Hty & Hin).
        specialize (Huniq (TaskCondition_Type c)). unfold occurrences in Huniq.
        rewrite ofType_cons_eq in Huniq by done. simpl in Huniq.
        assert (ofType (TaskCondition_Type c) cs = []) as Hnil
          by (apply nil_length_inv; lia).
        by apply (filter_nil_not_elem_of _ _ c' Hnil).
      * intros cType. specialize (Huniq cType). unfold occurrences in *.
        destruct (decide (TaskCondition_Type c = cType)) as [Hc|Hc].
        -- rewrite ofType_cons_eq in Huniq by done. simpl in Huniq. lia.
        -- by rewrite ofType_cons_ne in Huniq.
    + intros [Hnotin Huniq] cType. unfold occurrences.
      destruct (decide (TaskCondition_Type c = cType)) as [Hc|Hc].
      * rewrite ofType_cons_eq by done. rewrite ofType_none; [done|].
        apply Forall_forall. intros c' Hin Hc'. apply Hnotin.
        apply list_elem_of_fmap. exists c'. split; [congruence|done].
      * rewrite ofType_cons_ne by done. apply Huniq.
Qed.

Lemma firstOfType_head cType c cs :
  TaskCondition_Type c = cType → firstOfType cType (c :: cs) 0 c.
Proof. intros Hc. repeat split; [done|]. intros j c' Hlt. lia. Qed.

(** C1, as stated, fails: on a task that holds two entries of type Completed,
    [SetCondition(Completed, True)] rewrites the first and leaves two entries
    of that type. *)
Lemma SetCondition_duplicates_remain :
  ∃ t', SetCondition TaskCompleted ConditionTrue []
          (withConditions [notCompleted; notCompleted]) = Ok ((), t') ∧
    conds t' = [mkTaskCondition TaskCompleted ConditionTrue EmptyString; notCompleted] ∧
    occurrences TaskCompleted (conds t') = 2.
Proof. eexists. split; [reflexivity|]. split; reflexivity. Qed.

(** Why the options of C1 and C4 are restricted: an option that rewrites the
    type leaves no entry of the type that was set. *)
Example SetCondition_retyped_entry_lost :
  ∃ t', SetCondition TaskCompleted ConditionTrue [retypeTo TaskFailed] newTask
          = Ok ((), t') ∧
    conds t' = [mkTaskCondition TaskFailed ConditionTrue EmptyString] ∧
    occurrences TaskCompleted (conds t') = 0.
Proof. eexists. split; [reflexivity|]. split; reflexivity. Qed.

Lemma SetCondition_exactly_one_witness :
  occurrences TaskCompleted (conds (withConditions [notCompleted; notFailed])) ≤ 1 ∧
  ∃ t' c,
    SetCondition TaskCompleted ConditionTrue [WithTaskConditionMessage "done"%string]
      (withConditions [notCompleted; notFailed]) = Ok ((), t') ∧
    ofType TaskCompleted (conds t') = [c] ∧
    TaskCondition_Status c = ConditionTrue.
Proof.
  assert (occurrences TaskCompleted (conds (withConditions [notCompleted; notFailed])) ≤ 1)
    as Hocc by (vm_compute; lia).
  split; [exact Hocc|].
  destruct (SetCondition_exactly_one _ _ Hocc) as [Hone _].
  destruct (Hone ConditionTrue [WithTaskConditionMessage "done"%string])
    as (t' & c & Hrun & Hof & Hst & _).
  - repeat constructor.
  - repeat constructor.
  - by exists t', c.
Defined.

Lemma SetCondition_frame_witness :
  TaskCompleted ≠ TaskFailed ∧
  conds (withConditions [notCompleted; notFailed]) !! 1 = Some notFailed ∧
  ∃ t', SetCondition TaskCompleted ConditionTrue []
          (withConditions [notCompleted; notFailed]) = Ok ((), t') ∧
    conds t' !! 1 = Some notFailed ∧
    Task_Spec t' = exampleSpec.
Proof.
  assert (TaskCompleted ≠ TaskFailed) as Hne by discriminate.
  split; [exact Hne|]. split; [reflexivity|].
  destruct (SetCondition_frame (withConditions [notCompleted; notFailed])
              TaskCompleted ConditionTrue [])
    as (t' & Hrun & Hother & Hspec & _).
  exists t'. split; [exact Hrun|]. split; [|exact Hspec].
  apply (Hother TaskFailed 1 notFailed Hne); reflexivity.
Defined.

Lemma HasCondition_first_match_witness :
  firstOfType TaskCompleted (conds (withConditions [notCompleted; notFailed])) 0 notCompleted ∧
  TaskCondition_Status notCompleted ≠ ConditionTrue ∧
  ∃ b, HasCondition TaskCompleted ConditionTrue (withConditions [notCompleted; notFailed])
         = Ok (b, withConditions [notCompleted; notFailed]) ∧
    b = false.
Proof.
  assert (firstOfType TaskCompleted
            (conds (withConditions [notCompleted; notFailed])) 0 notCompleted)
    as Hfirst by (by apply firstOfType_head).
  assert (TaskCondition_Status notCompleted ≠ ConditionTrue) as Hst by discriminate.
  split; [exact Hfirst|]. split; [exact Hst|].
  destruct (HasCondition_first_match (withConditions [notCompleted; notFailed])
              TaskCompleted ConditionTrue)
    as (b & Hrun & _ & _ & Hother).
  exists b. split; [exact Hrun|]. exact (Hother 0 notCompleted Hfirst Hst).
Defined.

(** C4, as stated, fails: with an option that rewrites the type, a call on a
    task whose types are all distinct leaves two entries of type Failed. *)
Lemma SetCondition_retyping_breaks_uniqueByType :
  uniqueByType (conds (withConditions [notCompleted; notFailed])) ∧
  ∃ t', SetCondition TaskCompleted ConditionTrue [retypeTo TaskFailed]
          (withConditions [notCompleted; notFailed]) = Ok ((), t') ∧
    conds t' = [mkTaskCondition TaskFailed ConditionTrue EmptyString; notFailed] ∧
    ¬ uniqueByType (conds t').
Proof.
  split.
  - apply uniqueByType_NoDup, (bool_decide_unpack _). by vm_compute.
  - eexists. split; [reflexivity|]. split; [reflexivity|].
    intros Huniq. specialize (Huniq TaskFailed). vm_compute in Huniq. lia.
Qed.

Lemma SetCondition_preserves_uniqueByType_witness :
  uniqueByType (conds (withConditions [notCompleted; notFailed])) ∧
  ∃ t', SetCondition TaskFailed ConditionTrue
          [WithTaskConditionMessage "boot device set failed"%string]
          (withConditions [notCompleted; notFailed]) = Ok ((), t') ∧
    uniqueByType (conds t').
Proof.
  assert (uniqueByType (conds (withConditions [notCompleted; notFailed]))) as Huniq
    by (apply uniqueByType_NoDup, (bool_decide_unpack _); by vm_compute).
  split; [exact Huniq|].
  apply (SetCondition_preserves_uniqueByType _ _ _ _ Huniq).
  repeat constructor.
Defined.

Lemma SetCondition_position_witness :
  conds (withConditions [notCompleted]) =
    [mkTaskCondition TaskCompleted ConditionFalse EmptyString] ∧
  ∃ t', SetCondition TaskCompleted ConditionTrue [] (withConditions [notCompleted])
          = Ok ((), t') ∧
    conds t' = [mkTaskCondition TaskCompleted ConditionTrue EmptyString].
Proof.
  split; [reflexivity|].
  destruct (SetCondition_position (withConditions [notCompleted])
              TaskCompleted ConditionTrue []) as (_ & _ & Hscenario).
  apply (Hscenario EmptyString). reflexivity.
Defined.

Lemma WithTaskConditionMessage_sets_message_witness :
  conds newTask = [] ∧
  ∃ t', SetCondition TaskFailed ConditionTrue
          [WithTaskConditionMessage "boot device set failed"%string] newTask
          = Ok ((), t') ∧
    conds t' =
      [mkTaskCondition TaskFailed ConditionTrue "boot device set failed"%string] ∧
    HasCondition TaskFailed ConditionTrue t' = Ok (true, t') ∧
    HasCondition TaskCompleted ConditionTrue t' = Ok (false, t').
Proof.
  split; [reflexivity|].
  destruct (WithTaskConditionMessage_sets_message newTask TaskFailed ConditionTrue
              "boot device set failed"%string) as [_ Hscenario].
  apply Hscenario. reflexivity.
Defined.

Lemma first_match_wins_on_duplicates_witness :
  1 < occurrences TaskCompleted (conds (withConditions [notCompleted; notFailed; notCompleted])) ∧
  ∃ t', SetCondition TaskCompleted ConditionTrue []
          (withConditions [notCompleted; notFailed; notCompleted]) = Ok ((), t') ∧
    conds t' !! 0 = Some (mkTaskCondition TaskCompleted ConditionTrue EmptyString) ∧
    conds t' !! 2 = Some notCompleted ∧
    HasCondition TaskCompleted ConditionFalse
      (withConditions [notCompleted; notFailed; notCompleted])
      = Ok (true, withConditions [notCompleted; notFailed; notCompleted]).
Proof.
  assert (1 < occurrences TaskCompleted
                (conds (withConditions [notCompleted; notFailed; notCompleted])))
    as Hocc by (vm_compute; lia).
  split; [exact Hocc|].
  destruct (first_match_wins_on_duplicates
              (withConditions [notCompleted; notFailed; notCompleted])
              TaskCompleted 0 notCompleted Hocc)
    as [Hset Hhas]; [by apply firstOfType_head|].
  destruct (Hset ConditionTrue []) as (t' & Hrun & Hi & Hothers & _).
  exists t'. split; [exact Hrun|]. split; [exact Hi|]. split.
  - rewrite (Hothers 2) by lia. reflexivity.
  - apply (Hhas ConditionFalse).
Defined.

(** ** [SetCondition] as an update of the sequence *)

Section Upsert.
Implicit Types (c : TaskCondition) (cs l : list TaskCondition).
Implicit Types (cType : TaskConditionType) (status cStatus : ConditionStatus).
Implicit Types (opts : list TaskSetConditionOption).

Lemma upsert_fresh cType status opts cs :
  noneOfType cType cs →
  upsert cType status opts cs =
    cs ++ [runOpts opts (TaskCondition_setStatus status (freshCondition cType))].
Proof.
  induction 1 as [|c cs Hc _ IH]; [done|]. simpl.
  rewrite decide_False by done. by rewrite IH.
Qed.

Lemma upsert_found cType status opts l1 c l2 :
  noneOfType cType l1 → TaskCondition_Type c = cType →
  upsert cType status opts (l1 ++ c :: l2) =
    l1 ++ runOpts opts (TaskCondition_setStatus status c) :: l2.
Proof.
  intros Hnone Hc. induction Hnone as [|c' l1 Hc' _ IH]; simpl.
  - by rewrite decide_True.
  - rewrite decide_False by done. by rewrite IH.
Qed.

Lemma hasConditionLoop_upsert cType status opts cStatus cs :
  Forall keepsType opts → Forall keepsStatus opts →
  hasConditionLoop cType cStatus (upsert cType status opts cs) =
    bool_decide (status = cStatus).
Proof.
  intros Hty Hst.
  assert (∀ l c, TaskCondition_Type c = cType →
    hasConditionLoop cType cStatus
      (runOpts opts (TaskCondition_setStatus status c) :: l) =
    bool_decide (status = cStatus)) as Hhead.
  { intros l c Hc. simpl.
    rewrite decide_True by (by rewrite runOpts_keepsType).
    by rewrite runOpts_keepsStatus. }
  induction cs as [|c cs IH]; simpl.
  - by apply (Hhead []).
  - destruct (decide (TaskCondition_Type c = cType)) as [Hc|Hc].
    + by apply Hhead.
    + simpl. by rewrite decide_False.
Qed.

Lemma hasConditionLoop_upsert_other cType1 cType2 status opts cStatus cs :
  cType1 ≠ cType2 → Forall keepsType opts →
  hasConditionLoop cType2 cStatus (upsert cType1 status opts cs) =
    hasConditionLoop cType2 cStatus cs.
Proof.
  intros Hne Hty. induction cs as [|c cs IH]; simpl.
  - rewrite decide_False; [done|]. rewrite runOpts_keepsType by done. done.
  - destruct (decide (TaskCondition_Type c = cType1)) as [Hc|Hc]; simpl.
    + rewrite !decide_False; [done|congruence|].
      rewrite runOpts_keepsType by done. simpl. congruence.
    + by rewrite IH.
Qed.

(** Two updates of one type collapse into one, when the first keeps the
    type of what it writes. *)
Lemma upsert_upsert cType status1 opts1 status2 opts2 status3 opts3 cs :
  Forall keepsType opts1 →
  (∀ c, runOpts opts2 (TaskCondition_setStatus status2
          (runOpts opts1 (TaskCondition_setStatus status1 c))) =
        runOpts opts3 (TaskCondition_setStatus status3 c)) →
  upsert cType status2 opts2 (upsert cType status1 opts1 cs) =
    upsert cType status3 opts3 cs.
Proof.
  intros Hty Hcomp. induction cs as [|c cs IH]; simpl.
  - rewrite decide_True by (by rewrite runOpts_keepsType). by rewrite Hcomp.
  - destruct (decide (TaskCondition_Type c = cType)) as [Hc|Hc]; simpl.
    + rewrite decide_True by (by rewrite runOpts_keepsType). by rewrite Hcomp.
    + rewrite decide_False by done. by rewrite IH.
Qed.

Lemma upsert_ext cType status opts status' opts' cs :
  (∀ c, runOpts opts (TaskCondition_setStatus status c) =
        runOpts opts' (TaskCondition_setStatus status' c)) →
  upsert cType status opts cs = upsert cType status' opts' cs.
Proof.
  intros Hext. induction cs as [|c cs IH]; simpl; [by rewrite Hext|].
  destruct (decide (TaskCondition_Type c = cType)); [by rewrite Hext|by rewrite IH].
Qed.

(** Updates of two types commute on a sequence that holds one of them. *)
Lemma upsert_comm cType1 status1 opts1 cType2 status2 opts2 cs :
  cType1 ≠ cType2 → Forall keepsType opts1 → Forall keepsType opts2 →
  Exists (λ c, TaskCondition_Type c = cType1 ∨ TaskCondition_Type c = cType2) cs →
  upsert cType2 status2 opts2 (upsert cType1 status1 opts1 cs) =
    upsert cType1 status1 opts1 (upsert cType2 status2 opts2 cs).
Proof.
  intros Hne Hty1 Hty2.
  assert (∀ c, TaskCondition_Type (runOpts opts1 (TaskCondition_setStatus status1 c)) =
               TaskCondition_Type c) as Hw1 by (intros c; by rewrite runOpts_keepsType).
  assert (∀ c, TaskCondition_Type (runOpts opts2 (TaskCondition_setStatus status2 c)) =
               TaskCondition_Type c) as Hw2 by (intros c; by rewrite runOpts_keepsType).
  induction cs as [|c cs IH]; intros Hex.
  - by apply Exists_nil in Hex.
  - destruct (decide (TaskCondition_Type c = cType1)) as [Hc1|Hc1].
    + assert (TaskCondition_Type c ≠ cType2) as Hc2 by congruence.
      cbn [upsert]. rewrite (decide_True _ _ Hc1), (decide_False _ _ Hc2).
      cbn [upsert]. rewrite (decide_True _ _ Hc1).
      rewrite decide_False by (rewrite Hw1; done). done.
    + destruct (decide (TaskCondition_Type c = cType2)) as [Hc2|Hc2].
      * cbn [upsert]. rewrite (decide_False _ _ Hc1), (decide_True _ _ Hc2).
        cbn [upsert]. rewrite (decide_True _ _ Hc2).
        rewrite decide_False by (rewrite Hw2; done). done.
      * cbn [upsert]. rewrite (decide_False _ _ Hc1), (decide_False _ _ Hc2).
        cbn [upsert]. rewrite (decide_False _ _ Hc1), (decide_False _ _ Hc2).
        f_equal. apply IH. apply Exists_cons in Hex as [[?|?]|Hex]; done.
Qed.

(** The types of the sequence after an update that keeps the type. *)
Lemma upsert_types cType status opts cs :
  Forall keepsType opts →
  TaskCondition_Type <$> upsert cType status opts cs =
    if decide (cType ∈ TaskCondition_Type <$> cs)
    then TaskCondition_Type <$> cs
    else (TaskCondition_Type <$> cs) ++ [cType].
Proof.
  intros Hty.
  assert (∀ c, TaskCondition_Type (runOpts opts (TaskCondition_setStatus status c)) =
               TaskCondition_Type c) as Hw by (intros c; by rewrite runOpts_keepsType).
  induction cs as [|c cs IH]; cbn [upsert].
  - rewrite decide_False by apply not_elem_of_nil.
    by rewrite fmap_cons, !fmap_nil, Hw.
  - rewrite (fmap_cons _ c cs).
    destruct (decide (TaskCondition_Type c = cType)) as [Hc|Hc].
    + rewrite decide_True by (rewrite Hc; apply list_elem_of_here).
      by rewrite fmap_cons, Hw.
    + rewrite fmap_cons, IH.
      destruct (decide (cType ∈ TaskCondition_Type <$> cs)) as [Hin|Hin].
      * by rewrite decide_True by (by apply list_elem_of_further).
      * rewrite decide_False; [done|].
        intros Hin'. apply elem_of_cons in Hin' as [?|?]; congruence.
Qed.

Lemma upsert_uniqueByType cType status opts cs :
  Forall keepsType opts → uniqueByType cs → uniqueByType (upsert cType status opts cs).
Proof.
  intros Hty. rewrite !uniqueByType_NoDup, upsert_types by done.
  destruct (decide (cType ∈ TaskCondition_Type <$> cs)) as [Hin|Hin]; [done|].
  intros Hnd. apply NoDup_app. split; [done|]. split; [|apply NoDup_singleton].
  intros x Hx Hx'. apply list_elem_of_singleton in Hx'. congruence.
Qed.

(** Message options applied one after the other leave the last message. *)
Lemma runOpts_messages (ms : list string) (m : string) c :
  runOpts ((WithTaskConditionMessage <$> ms) ++ [WithTaskConditionMessage m]) c =
    TaskCondition_setMessage m c.
Proof.
  revert c. induction ms as [|m' ms IH]; intros c; [done|].
  rewrite fmap_cons.
  change (runOpts ((WithTaskConditionMessage <$> ms) ++ [WithTaskConditionMessage m])
            (WithTaskConditionMessage m' c) = TaskCondition_setMessage m c).
  by rewrite IH.
Qed.

End Upsert.

(** ** How calls compose *)

Section Composition.
Context {Connection Time TypeMeta ObjectMeta : Type}.
Implicit Types (t : Task Connection Time TypeMeta ObjectMeta).
Implicit Types (c : TaskCondition) (cs l : list TaskCondition).
Implicit Types (cType : TaskConditionType) (status cStatus : ConditionStatus).
Implicit Types (opts : list TaskSetConditionOption).
Implicit Types (call : SetConditionCall) (calls pre post : list SetConditionCall).

(** [SetCondition] returns, and the sequence it leaves is the update of the
    sequence it found. *)
Lemma SetCondition_upsert cType status opts t :
  SetCondition cType status opts t =
    Ok ((), Task_setConditions (upsert cType status opts (conds t)) t).
Proof.
  destruct (first_split cType (conds t)) as [Hnone|(l1 & c & l2 & Hcs & Hnone & Hc)].
  - rewrite upsert_fresh by done. by apply SetCondition_fresh.
  - rewrite Hcs, upsert_found by done. by apply SetCondition_found.
Qed.

Lemma SetConditions_run calls t :
  SetConditions calls t =
    Ok ((), Task_setConditions
              (foldl (λ cs call,
                        upsert (call_cType call) (call_status call) (call_opts call) cs)
                     (conds t) calls) t).
Proof.
  revert t. induction calls as [|call calls IH]; intros t.
  - simpl. by rewrite Task_setConditions_same.
  - cbn [SetConditions foldl].
    rewrite (Go_bind_Ok _ _ _ _ _ (SetCondition_upsert _ _ _ t)).
    by rewrite IH.
Qed.

(** Calls for other types, with options that keep the type, leave the answer
    of the loop of [HasCondition] for a type as it was. *)
Lemma hasConditionLoop_other_calls cType cStatus post cs :
  Forall (λ call, call_cType call ≠ cType ∧ Forall keepsType (call_opts call)) post →
  hasConditionLoop cType cStatus
    (foldl (λ cs call,
              upsert (call_cType call) (call_status call) (call_opts call) cs)
           cs post) =
  hasConditionLoop cType cStatus cs.
Proof.
  intros Hpost. revert cs. induction Hpost as [|call post [Hne Hty] _ IH]; intros cs.
  - done.
  - cbn [foldl]. rewrite IH. by apply hasConditionLoop_upsert_other.
Qed.

Lemma uniqueByType_calls calls cs :
  Forall (λ call, Forall keepsType (call_opts call)) calls →
  uniqueByType cs →
  uniqueByType
    (foldl (λ cs call,
              upsert (call_cType call) (call_status call) (call_opts call) cs)
           cs calls).
Proof.
  intros Hcalls. revert cs. induction Hcalls as [|call calls Hty _ IH]; intros cs Huniq.
  - done.
  - cbn [foldl]. apply IH. by apply upsert_uniqueByType.
Qed.

(** X1. After [SetCondition(T, S, opts...)] with options that write neither
    the type nor the status, [HasCondition(T, S)] is true and
    [HasCondition(T, S')] is false for every other status [S'], whatever the
    task held before. *)
Theorem SetCondition_then_HasCondition t cType status opts :
  Forall keepsType opts → Forall keepsStatus opts →
  ∃ t', SetCondition cType status opts t = Ok ((), t') ∧
    HasCondition cType status t' = Ok (true, t') ∧
    ∀ cStatus, cStatus ≠ status → HasCondition cType cStatus t' = Ok (false, t').
Proof.
  intros Hty Hst. eexists. split; [apply SetCondition_upsert|].
  split; [|intros cStatus Hne]; rewrite HasCondition_run; simpl;
    rewrite hasConditionLoop_upsert by done.
  - by rewrite bool_decide_eq_true_2.
  - by rewrite bool_decide_eq_false_2.
Qed.

(** X2. [SetCondition(T1, ...)] with options that keep the type does not
    change what [HasCondition(T2, S)] answers for any other type [T2]. *)
Theorem SetCondition_keeps_other_answers t cType1 cType2 status opts cStatus :
  cType1 ≠ cType2 → Forall keepsType opts →
  ∃ t' b, SetCondition cType1 status opts t = Ok ((), t') ∧
    HasCondition cType2 cStatus t = Ok (b, t) ∧
    HasCondition cType2 cStatus t' = Ok (b, t').
Proof.
  intros Hne Hty. eexists _, _. split; [apply SetCondition_upsert|].
  split; [apply HasCondition_run|]. rewrite HasCondition_run. simpl.
  by rewrite hasConditionLoop_upsert_other.
Qed.

(** X3. A call [SetCondition(T, S1)] without options is overwritten by a
    later call for the same type: [SetCondition(T, S1)] followed by
    [SetCondition(T, S2, opts...)] leaves the task that
    [SetCondition(T, S2, opts...)] alone leaves. *)
Theorem SetCondition_last_status_wins t cType status1 status2 opts :
  ∃ t1 t2, SetCondition cType status1 [] t = Ok ((), t1) ∧
    SetCondition cType status2 opts t1 = Ok ((), t2) ∧
    SetCondition cType status2 opts t = Ok ((), t2).
Proof.
  eexists _, _. split; [apply SetCondition_upsert|].
  split; [|apply SetCondition_upsert].
  rewrite SetCondition_upsert. simpl.
  by rewrite (upsert_upsert _ _ _ _ _ status2 opts) by (done || constructor).
Qed.

(** X4. Repeating a call changes nothing: after
    [SetCondition(T, S, WithTaskConditionMessage(m))] the same call returns
    the task it was given, and so does [SetCondition(T, S)] after
    [SetCondition(T, S)]. *)
Theorem SetCondition_idempotent t cType status m :
  (∃ t1, SetCondition cType status [WithTaskConditionMessage m] t = Ok ((), t1) ∧
     SetCondition cType status [WithTaskConditionMessage m] t1 = Ok ((), t1)) ∧
  (∃ t1, SetCondition cType status [] t = Ok ((), t1) ∧
     SetCondition cType status [] t1 = Ok ((), t1)).
Proof.
  split; (eexists; split; [apply SetCondition_upsert|]);
    rewrite SetCondition_upsert; simpl.
  - rewrite (upsert_upsert _ _ _ _ _ status [WithTaskConditionMessage m]); [done| |done].
    repeat constructor.
  - by rewrite (upsert_upsert _ _ _ _ _ status []) by (done || constructor).
Qed.

(** X5. Options run in the order they are passed, so of several message
    options the last one stays: a call with message options for [ms] and then
    [m] leaves the task that the call with the one option for [m] leaves. *)
Theorem SetCondition_last_message_wins t cType status (ms : list string) (m : string) :
  ∃ t', SetCondition cType status
          ((WithTaskConditionMessage <$> ms) ++ [WithTaskConditionMessage m]) t
          = Ok ((), t') ∧
    SetCondition cType status [WithTaskConditionMessage m] t = Ok ((), t').
Proof.
  eexists. split; [apply SetCondition_upsert|]. rewrite SetCondition_upsert.
  do 3 f_equal. apply upsert_ext. intros c. by rewrite runOpts_messages.
Qed.

(** X6. Calls for two different types, with options that keep the type,
    commute on a task that already holds an entry of one of the two types. *)
Theorem SetCondition_commute t cType1 status1 opts1 cType2 status2 opts2 :
  cType1 ≠ cType2 → Forall keepsType opts1 → Forall keepsType opts2 →
  (∃ c, c ∈ conds t ∧
        (TaskCondition_Type c = cType1 ∨ TaskCondition_Type c = cType2)) →
  ∃ ta tb t',
    SetCondition cType1 status1 opts1 t = Ok ((), ta) ∧
    SetCondition cType2 status2 opts2 ta = Ok ((), t') ∧
    SetCondition cType2 status2 opts2 t = Ok ((), tb) ∧
    SetCondition cType1 status1 opts1 tb = Ok ((), t').
Proof.
  intros Hne Hty1 Hty2 Hex. eexists _, _, _.
  split; [apply SetCondition_upsert|]. split; [apply SetCondition_upsert|].
  split; [apply SetCondition_upsert|]. rewrite SetCondition_upsert. simpl.
  rewrite (upsert_comm cType1 status1 opts1 cType2 status2 opts2)
    by (done || by apply Exists_exists).
  reflexivity.
Qed.

(** X7. When the task holds neither of two different types, the two entries
    are appended in the order of the calls. *)
Theorem SetCondition_appends_in_call_order t cType1 status1 opts1 cType2 status2 opts2 :
  cType1 ≠ cType2 → Forall keepsType opts1 →
  noneOfType cType1 (conds t) → noneOfType cType2 (conds t) →
  ∃ ta t',
    SetCondition cType1 status1 opts1 t = Ok ((), ta) ∧
    SetCondition cType2 status2 opts2 ta = Ok ((), t') ∧
    conds t' =
      conds t ++
        [runOpts opts1 (TaskCondition_setStatus status1 (freshCondition cType1));
         runOpts opts2 (TaskCondition_setStatus status2 (freshCondition cType2))].
Proof.
  intros Hne Hty1 Hnone1 Hnone2. eexists _, _.
  split; [apply SetCondition_upsert|]. split; [apply SetCondition_upsert|].
  simpl. rewrite (upsert_fresh cType1) by done.
  rewrite upsert_fresh, <-app_assoc; [done|].
  apply Forall_app. split; [done|]. repeat constructor.
  rewrite runOpts_keepsType by done. simpl. congruence.
Qed.

(** X8. Calls of [SetCondition] whose options keep the type, made one after
    the other on a task in which each type occurs at most once (a task
    without conditions is one), leave a task in which each type occurs at
    most once. *)
Theorem SetConditions_keep_uniqueByType t calls :
  uniqueByType (conds t) →
  Forall (λ call, Forall keepsType (call_opts call)) calls →
  ∃ t', SetConditions calls t = Ok ((), t') ∧ uniqueByType (conds t').
Proof.
  intros Huniq Hcalls. eexists. split; [apply SetConditions_run|].
  simpl. by apply uniqueByType_calls.
Qed.

(** X9. With options that keep the type, [SetCondition(T, ...)] leaves the
    sequence of types as it was when [T] is among them, and with [T] added at
    its end when it is not: no type disappears or moves. *)
Theorem SetCondition_types t cType status opts :
  Forall keepsType opts →
  ∃ t', SetCondition cType status opts t = Ok ((), t') ∧
    (cType ∈ TaskCondition_Type <$> conds t →
       TaskCondition_Type <$> conds t' = TaskCondition_Type <$> conds t) ∧
    (cType ∉ TaskCondition_Type <$> conds t →
       TaskCondition_Type <$> conds t' = (TaskCondition_Type <$> conds t) ++ [cType]).
Proof.
  intros Hty. eexists. split; [apply SetCondition_upsert|]. simpl.
  rewrite upsert_types by done.
  split; intros Hin; [by rewrite decide_True|by rewrite decide_False].
Qed.

(** X10. [HasCondition] answers true for at most one status of a type. *)
Theorem HasCondition_one_status t cType cStatus1 cStatus2 :
  HasCondition cType cStatus1 t = Ok (true, t) →
  HasCondition cType cStatus2 t = Ok (true, t) →
  cStatus1 = cStatus2.
Proof.
  rewrite !HasCondition_run. intros H1 H2.
  assert (hasConditionLoop cType cStatus1 (conds t) = true) as Hb1 by congruence.
  assert (hasConditionLoop cType cStatus2 (conds t) = true) as Hb2 by congruence.
  clear H1 H2.
  destruct (first_split cType (conds t)) as [Hnone|(l1 & c & l2 & Hcs & Hnone & Hc)].
  - by rewrite hasConditionLoop_none in Hb1.
  - rewrite Hcs, hasConditionLoop_found in Hb1, Hb2 by done.
    apply bool_decide_eq_true in Hb1, Hb2. congruence.
Qed.

(** X11. On a task with at most one entry of type [T], [HasCondition(T, S)]
    is true exactly when some entry has type [T] and status [S]. *)
Theorem HasCondition_membership t cType cStatus :
  occurrences cType (conds t) ≤ 1 →
  (HasCondition cType cStatus t = Ok (true, t) ↔
   ∃ c, c ∈ conds t ∧ TaskCondition_Type c = cType ∧ TaskCondition_Status c = cStatus).
Proof.
  intros Hocc. rewrite HasCondition_run.
  destruct (first_split cType (conds t)) as [Hnone|(l1 & c & l2 & Hcs & Hnone & Hc)].
  - rewrite hasConditionLoop_none by done. split; [done|].
    intros (c & Hin & Hc & _). by destruct (proj1 (Forall_forall _ _) Hnone c Hin).
  - rewrite Hcs, hasConditionLoop_found by done.
    unfold occurrences in Hocc. rewrite Hcs, ofType_split in Hocc by done.
    assert (ofType cType l2 = []) as Hl2 by (apply nil_length_inv; simpl in Hocc; lia).
    split.
    + intros Hb. exists c.
      split; [apply elem_of_app; right; apply list_elem_of_here|]. split; [done|].
      assert (bool_decide (TaskCondition_Status c = cStatus) = true) as Hb'
        by congruence.
      by apply bool_decide_eq_true in Hb'.
    + intros (c' & Hin & Hc' & Hst).
      apply elem_of_app in Hin as [Hin|Hin].
      { by destruct (proj1 (Forall_forall _ _) Hnone c' Hin). }
      apply elem_of_cons in Hin as [->|Hin].
      * by rewrite bool_decide_eq_true_2.
      * by destruct (filter_nil_not_elem_of _ _ c' Hl2 Hc').
Qed.

(** X12. After any calls, a call [SetCondition(T, S, opts...)] whose options
    write neither the type nor the status, and then calls for other types
    whose options keep the type: [HasCondition(T, S)] is true and
    [HasCondition(T, S')] is false for every other status. The last call for
    a type decides the answer. *)
Theorem SetConditions_last_call_wins t pre call post :
  Forall keepsType (call_opts call) → Forall keepsStatus (call_opts call) →
  Forall (λ k, call_cType k ≠ call_cType call ∧ Forall keepsType (call_opts k)) post →
  ∃ t', SetConditions (pre ++ call :: post) t = Ok ((), t') ∧
    HasCondition (call_cType call) (call_status call) t' = Ok (true, t') ∧
    ∀ cStatus, cStatus ≠ call_status call →
      HasCondition (call_cType call) cStatus t' = Ok (false, t').
Proof.
  intros Hty Hst Hpost. eexists. split; [apply SetConditions_run|].
  split; [|intros cStatus Hne]; rewrite HasCondition_run; simpl;
    rewrite foldl_app; cbn [foldl];
    rewrite hasConditionLoop_other_calls, hasConditionLoop_upsert by done.
  - by rewrite bool_decide_eq_true_2.
  - by rewrite bool_decide_eq_false_2.
Qed.

End Composition.

(** ** The further properties on concrete tasks *)

Lemma SetCondition_then_HasCondition_witness :
  Forall keepsType [WithTaskConditionMessage "power on done"%string] ∧
  Forall keepsStatus [WithTaskConditionMessage "power on done"%string] ∧
  ∃ t', SetCondition TaskCompleted ConditionTrue
          [WithTaskConditionMessage "power on done"%string]
          (withConditions [notCompleted; notFailed]) = Ok ((), t') ∧
    HasCondition TaskCompleted ConditionTrue t' = Ok (true, t') ∧
    HasCondition TaskCompleted ConditionFalse t' = Ok (false, t').
Proof.
  assert (Forall keepsType [WithTaskConditionMessage "power on done"%string]) as Hty
    by repeat constructor.
  assert (Forall keepsStatus [WithTaskConditionMessage "power on done"%string]) as Hst
    by repeat constructor.
  split; [exact Hty|]. split; [exact Hst|].
  destruct (SetCondition_then_HasCondition (withConditions [notCompleted; notFailed])
              TaskCompleted ConditionTrue _ Hty Hst) as (t' & Hrun & Htrue & Hfalse).
  exists t'. split; [exact Hrun|]. split; [exact Htrue|].
  apply Hfalse. discriminate.
Defined.

Lemma SetCondition_keeps_other_answers_witness :
  TaskCompleted ≠ TaskFailed ∧
  ∃ t' b, SetCondition TaskCompleted ConditionTrue []
            (withConditions [notCompleted; notFailed]) = Ok ((), t') ∧
    HasCondition TaskFailed ConditionFalse (withConditions [notCompleted; notFailed])
      = Ok (b, withConditions [notCompleted; notFailed]) ∧
    HasCondition TaskFailed ConditionFalse t' = Ok (b, t').
Proof.
  assert (TaskCompleted ≠ TaskFailed) as Hne by discriminate.
  split; [exact Hne|].
  apply (SetCondition_keeps_other_answers (withConditions [notCompleted; notFailed])
           TaskCompleted TaskFailed ConditionTrue [] ConditionFalse Hne).
  constructor.
Defined.

Lemma SetCondition_commute_witness :
  TaskCompleted ≠ TaskFailed ∧
  notCompleted ∈ conds (withConditions [notCompleted]) ∧
  ∃ ta tb t',
    SetCondition TaskCompleted ConditionTrue [] (withConditions [notCompleted])
      = Ok ((), ta) ∧
    SetCondition TaskFailed ConditionFalse [] ta = Ok ((), t') ∧
    SetCondition TaskFailed ConditionFalse [] (withConditions [notCompleted])
      = Ok ((), tb) ∧
    SetCondition TaskCompleted ConditionTrue [] tb = Ok ((), t').
Proof.
  assert (TaskCompleted ≠ TaskFailed) as Hne by discriminate.
  assert (notCompleted ∈ conds (withConditions [notCompleted])) as Hin
    by apply list_elem_of_here.
  split; [exact Hne|]. split; [exact Hin|].
  apply (SetCondition_commute (withConditions [notCompleted])
           TaskCompleted ConditionTrue [] TaskFailed ConditionFalse [] Hne);
    [constructor|constructor|].
  exists notCompleted. split; [exact Hin|]. by left.
Defined.

Lemma SetCondition_appends_in_call_order_witness :
  TaskCompleted ≠ TaskFailed ∧
  noneOfType TaskCompleted (conds newTask) ∧ noneOfType TaskFailed (conds newTask) ∧
  ∃ ta t',
    SetCondition TaskCompleted ConditionTrue [] newTask = Ok ((), ta) ∧
    SetCondition TaskFailed ConditionFalse [] ta = Ok ((), t') ∧
    conds t' = [mkTaskCondition TaskCompleted ConditionTrue EmptyString;
                mkTaskCondition TaskFailed ConditionFalse EmptyString].
Proof.
  assert (TaskCompleted ≠ TaskFailed) as Hne by discriminate.
  assert (noneOfType TaskCompleted (conds newTask)) as Hnone1 by constructor.
  assert (noneOfType TaskFailed (conds newTask)) as Hnone2 by constructor.
  split; [exact Hne|]. split; [exact Hnone1|]. split; [exact Hnone2|].
  apply (SetCondition_appends_in_call_order newTask
           TaskCompleted ConditionTrue [] TaskFailed ConditionFalse []
           Hne (Forall_nil_2 _) Hnone1 Hnone2).
Defined.

Lemma SetConditions_keep_uniqueByType_witness :
  uniqueByType (conds newTask) ∧
  ∃ t', SetConditions
          [mkSetConditionCall TaskCompleted ConditionFalse [];
           mkSetConditionCall TaskFailed ConditionTrue
             [WithTaskConditionMessage "boot device set failed"%string];
           mkSetConditionCall TaskCompleted ConditionTrue []]
          newTask = Ok ((), t') ∧
    uniqueByType (conds t').
Proof.
  assert (uniqueByType (conds newTask)) as Huniq
    by (apply uniqueByType_NoDup; constructor).
  split; [exact Huniq|].
  apply (SetConditions_keep_uniqueByType newTask _ Huniq).
  repeat constructor.
Defined.

Lemma SetCondition_types_witness :
  TaskCompleted ∈ TaskCondition_Type <$> conds (withConditions [notCompleted; notFailed]) ∧
  ∃ t', SetCondition TaskCompleted ConditionTrue []
          (withConditions [notCompleted; notFailed]) = Ok ((), t') ∧
    TaskCondition_Type <$> conds t' = [TaskCompleted; TaskFailed].
Proof.
  assert (TaskCompleted ∈
            TaskCondition_Type <$> conds (withConditions [notCompleted; notFailed]))
    as Hin by apply list_elem_of_here.
  split; [exact Hin|].
  destruct (SetCondition_types (withConditions [notCompleted; notFailed])
              TaskCompleted ConditionTrue [] (Forall_nil_2 _))
    as (t' & Hrun & Hpresent & _).
  exists t'. split; [exact Hrun|]. exact (Hpresent Hin).
Defined.

Lemma HasCondition_one_status_witness :
  HasCondition TaskCompleted ConditionFalse (withConditions [notCompleted; notFailed])
    = Ok (true, withConditions [notCompleted; notFailed]) ∧
  ConditionFalse = TaskCondition_Status notCompleted.
Proof.
  assert (HasCondition TaskCompleted ConditionFalse
            (withConditions [notCompleted; notFailed])
          = Ok (true, withConditions [notCompleted; notFailed])) as Hhas
    by reflexivity.
  split; [exact Hhas|].
  exact (HasCondition_one_status _ _ _ _ Hhas Hhas).
Defined.

Lemma HasCondition_membership_witness :
  occurrences TaskFailed (conds (withConditions [notCompleted; notFailed])) ≤ 1 ∧
  notFailed ∈ conds (withConditions [notCompleted; notFailed]) ∧
  HasCondition TaskFailed ConditionFalse (withConditions [notCompleted; notFailed])
    = Ok (true, withConditions [notCompleted; notFailed]).
Proof.
  assert (occurrences TaskFailed (conds (withConditions [notCompleted; notFailed])) ≤ 1)
    as Hocc by (vm_compute; lia).
  assert (notFailed ∈ conds (withConditions [notCompleted; notFailed])) as Hin
    by (apply list_elem_of_further, list_elem_of_here).
  split; [exact Hocc|]. split; [exact Hin|].
  apply (HasCondition_membership _ _ _ Hocc).
  exists notFailed. split; [exact Hin|]. split; reflexivity.
Defined.

Lemma SetConditions_last_call_wins_witness :
  ∃ t', SetConditions
          ([mkSetConditionCall TaskCompleted ConditionFalse []] ++
           mkSetConditionCall TaskCompleted ConditionTrue
             [WithTaskConditionMessage "power on done"%string] ::
           [mkSetConditionCall TaskFailed ConditionFalse []])
          newTask = Ok ((), t') ∧
    HasCondition TaskCompleted ConditionTrue t' = Ok (true, t') ∧
    HasCondition TaskCompleted ConditionFalse t' = Ok (false, t').
Proof.
  destruct (SetConditions_last_call_wins newTask
              [mkSetConditionCall TaskCompleted ConditionFalse []]
              (mkSetConditionCall TaskCompleted ConditionTrue
                 [WithTaskConditionMessage "power on done"%string])
              [mkSetConditionCall TaskFailed ConditionFalse []])
    as (t' & Hrun & Htrue & Hfalse).
  - repeat constructor.
  - repeat constructor.
  - repeat constructor. discriminate.
  - exists t'. split; [exact Hrun|]. split; [exact Htrue|].
    apply Hfalse. discriminate.
Defined.

(** ** Nil and failing options *)

Section OptionValuesRuns.
Context {Connection Time TypeMeta ObjectMeta : Type}.
Implicit Types (t : Task Connection Time TypeMeta ObjectMeta).
Implicit Types (c : TaskCondition) (cs l : list TaskCondition).
Implicit Types (cType : TaskConditionType) (status cStatus : ConditionStatus).
Implicit Types (opts : list TaskSetConditionOption) (vs : list OptionValue).

Lemma Go_bind_ext {A B : Type} (m : @Go Connection Time TypeMeta ObjectMeta A)
    (f g : A → @Go Connection Time TypeMeta ObjectMeta B) t :
  (∀ a t', f a t' = g a t') → (m ≫= f) t = (m ≫= g) t.
Proof.
  intros Hfg. unfold mbind, Go_bind. destruct (m t) as [[a t']|p]; [apply Hfg|done].
Qed.

(** On options of the first embedding the loop over option values is the
    loop [applyOpts], and the method is [SetCondition]. *)
Lemma applyOptionValues_values (condition : ptr) opts t :
  applyOptionValues condition (optionValueOf <$> opts) t = applyOpts condition opts t.
Proof.
  revert t. induction opts as [|opt opts IH]; intros t; [done|].
  rewrite fmap_cons. cbn [applyOptionValues applyOpts].
  unfold mbind, Go_bind.
  assert (callOption condition (optionValueOf opt) t = through condition opt t) as ->.
  { unfold callOption, through, optionValueOf. destruct condition as [i|]; [|done].
    by destruct (conds t !! i). }
  destruct (through condition opt t) as [[[] t']|p]; [apply IH|done].
Qed.

Lemma SetConditionWith_values cType status opts t :
  SetConditionWith cType status (optionValueOf <$> opts) t =
    SetCondition cType status opts t.
Proof.
  unfold SetConditionWith, SetCondition.
  apply Go_bind_ext. intros cs t1.
  apply Go_bind_ext. intros p t2.
  apply Go_bind_ext. intros p' t3.
  apply Go_bind_ext. intros [] t4.
  apply applyOptionValues_values.
Qed.

(** The loop over option values that all return, through a pointer to an
    element, returns. *)
Lemma applyOptionValues_returns vs (i : nat) c t :
  Forall returnsAlways vs → conds t !! i = Some c →
  ∃ c', applyOptionValues (Some i) vs t =
          Ok ((), Task_setConditions (<[i := c']> (conds t)) t).
Proof.
  intros Hvs. revert c t. induction Hvs as [|v vs Hv _ IH]; intros c t Hi.
  - exists c. simpl. by rewrite list_insert_id, Task_setConditions_same.
  - destruct v as [|call]; [done|]. destruct (Hv c) as [c1 Hcall].
    assert (callOption (Some i) (FuncOption call) t =
            Ok ((), Task_setConditions (<[i := c1]> (conds t)) t)) as Hstep.
    { unfold callOption. by rewrite Hi, Hcall. }
    cbn [applyOptionValues]. rewrite (Go_bind_Ok _ _ _ _ _ Hstep).
    destruct (IH c1 (Task_setConditions (<[i := c1]> (conds t)) t)) as [c' Hrest].
    + simpl. apply list_lookup_insert_eq, (lookup_lt_Some _ _ _ Hi).
    + exists c'. rewrite Hrest. simpl. by rewrite list_insert_insert_eq.
Qed.

Lemma SetConditionWith_returns cType status vs t :
  Forall returnsAlways vs → ∃ t', SetConditionWith cType status vs t = Ok ((), t').
Proof.
  intros Hvs. unfold SetConditionWith.
  rewrite (Go_bind_Ok _ _ t (conds t) t) by done.
  destruct (first_split cType (conds t)) as [Hnone|(l1 & c & l2 & Hcs & Hnone & Hc)].
  - set (t1 := Task_setConditions (conds t ++ [freshCondition cType]) t).
    assert (conds t1 !! length (conds t) = Some (freshCondition cType)) as Hi
      by (simpl; by apply list_lookup_middle).
    rewrite (Go_bind_Ok _ _ t None t) by (by apply findExisting_none).
    rewrite (Go_bind_Ok _ _ t (Some (length (conds t))) t1).
    + rewrite (Go_bind_Ok _ _ _ _ _ (through_run _ _ _ _ Hi)).
      edestruct (applyOptionValues_returns vs (length (conds t))) as [c' Hrun];
        [done| |rewrite Hrun; eauto].
      simpl. apply list_lookup_insert_eq, (lookup_lt_Some _ _ _ Hi).
    + rewrite (Go_bind_Ok _ _ t () t1) by done.
      rewrite (Go_bind_Ok _ _ t1 (Z.of_nat (length (conds t1))) t1) by done.
      unfold addrOfCondition. simpl. rewrite length_app. simpl.
      rewrite decide_True by lia. do 3 f_equal. lia.
  - assert (conds t !! length l1 = Some c) as Hi
      by (rewrite Hcs; by apply list_lookup_middle).
    rewrite (Go_bind_Ok _ _ t (Some (0 + length l1)) t)
      by (rewrite Hcs; apply (findExisting_found _ _ _ _ 0); rewrite ?Hcs; done).
    rewrite (Go_bind_Ok _ _ t (Some (length l1)) t) by done.
    rewrite (Go_bind_Ok _ _ _ _ _ (through_run _ _ _ _ Hi)).
    edestruct (applyOptionValues_returns vs (length l1)) as [c' Hrun];
      [done| |rewrite Hrun; eauto].
    simpl. apply list_lookup_insert_eq, (lookup_lt_Some _ _ _ Hi).
Qed.

(** C7, as amended. [SetCondition] returns, without a panic, on every task
    and for every type, status and option list in which each option is a
    function (not nil) whose calls return; [HasCondition] returns on every
    task and for every type and status. *)
Theorem SetCondition_HasCondition_return t cType status cStatus vs :
  (Forall returnsAlways vs →
     ∃ t', SetConditionWith cType status vs t = Ok ((), t')) ∧
  (∃ b t', HasCondition cType cStatus t = Ok (b, t')).
Proof.
  split; [apply SetConditionWith_returns|].
  eexists _, _. apply HasCondition_run.
Qed.

End OptionValuesRuns.

(** C7, as stated, fails: a nil function is a value of type
    [TaskSetConditionOption], and [SetCondition(Failed, True, nil)] on a task
    without conditions panics at the call [opt(condition)]. *)
Lemma SetCondition_nil_option_panics :
  SetConditionWith TaskFailed ConditionTrue [NilOption] newTask = Panic NilDereference.
Proof. reflexivity. Qed.

(** Why the options of C7 must return: an option whose call panics ends the
    method with that panic. *)
Example SetCondition_failing_option_panics :
  SetConditionWith TaskFailed ConditionTrue
    [FuncOption (λ _, Panic (IndexOutOfRange 0 0))] newTask
    = Panic (IndexOutOfRange 0 0).
Proof. reflexivity. Qed.

Lemma SetCondition_HasCondition_return_witness :
  Forall returnsAlways
    [optionValueOf (WithTaskConditionMessage "boot device set failed"%string)] ∧
  ∃ t', SetConditionWith TaskFailed ConditionTrue
          [optionValueOf (WithTaskConditionMessage "boot device set failed"%string)]
          newTask = Ok ((), t').
Proof.
  assert (Forall returnsAlways
            [optionValueOf (WithTaskConditionMessage "boot device set failed"%string)])
    as Hvs by (repeat constructor; intros c; by eexists).
  split; [exact Hvs|].
  destruct (SetCondition_HasCondition_return newTask TaskFailed ConditionTrue
              ConditionTrue
              [optionValueOf (WithTaskConditionMessage "boot device set failed"%string)])
    as [Hset _].
  exact (Hset Hvs).
Defined.
